(** * debug-plotter: a shallow embedding of [src/src/lib.rs]

    The crate records, per call site of the [plot!] macro, one buffer of
    [(x, y)] samples per declared variable, and renders every record when
    the thread-local registry [PLOTS] is dropped.

    Modelling choices:
    - [PlotType] ([f64]) is the Standard Library's IEEE-754 model
      [spec_float] at binary64 ([prec = 53], [emax = 1024]); Rust's [<] and
      [>] on [f64] are read off [SFcompare] (IEEE comparison, false when a
      NaN is involved).
    - a [VecDeque] is a list, front first; [pop_front] on an empty deque does
      nothing, like [tl].
    - [u64] arithmetic is written with its wrap-around modulo [2^64].
    - indexing [self.values[i]] out of bounds panics: the operation returns
      [None].
    - the [HashMap<Location, PlotWrapper>] is a [gmap]; its iteration order
      is unspecified: teardown runs over any listing [ws] of the map
      ([iteration_order m ws]).
    - the functions of the standard library and of the external crates whose
      outcome the code unwraps are parameters: [Path::parent], [create_dir_all],
      [Plot::plot] drawing through plotters (which may return an error or not
      return at all), the build of a piston window and the redraw of a live
      window. *)

From Stdlib Require Import ZArith Ascii SpecFloat Lia.
From stdpp Require Import base gmap strings list pretty.

Open Scope list_scope.

(** ** Floats *)

Definition prec : Z := 53.
Definition emax : Z := 1024.

(** [type PlotType = f64;] *)
Definition PlotType := spec_float.

(** [PlotType::MAX] and [PlotType::MIN] (the most negative finite value). *)
Definition f64_MAX : PlotType := SFmax_float prec emax.
Definition f64_MIN : PlotType := SFopp f64_MAX.

(** [val < acc] on [f64]. *)
Definition f64_lt (a b : PlotType) : bool := SFltb a b.

(** [val > acc] on [f64]: [partial_cmp] is [Some(Greater)]. *)
Definition f64_gt (a b : PlotType) : bool :=
  match SFcompare a b with Some Gt => true | _ => false end.

(** [u64::to_f64]: round to nearest, ties to even. *)
Definition u64_to_f64 (n : N) : PlotType := binary_normalize prec emax (Z.of_N n) 0 false.

Definition is_nan (f : PlotType) : bool :=
  match f with S754_nan => true | _ => false end.

(** ** [Location] *)

Record Location := mkLocation {
  file : string;
  line : N;
  column : N
}.

#[global] Instance Location_eq_dec : EqDecision Location.
Proof. solve_decision. Defined.

#[global] Instance Location_countable : Countable Location.
Proof.
  apply (inj_countable' (fun l => (file l, line l, column l))
                        (fun t => mkLocation t.1.1 t.1.2 t.2)).
  by intros [].
Defined.

(** [impl fmt::Display for Location]: ["{}:{}:{}"]. *)
Definition location_to_string (l : Location) : string :=
  file l +:+ ":" +:+ pretty (line l) +:+ ":" +:+ pretty (column l).

(** ** [Options] *)

Module Options.
Record t := mk {
  caption : option string;
  size : option (N * N);
  x_desc : option string;
  y_desc : option string;
  path : option string;
  x_range : option (PlotType * PlotType);
  y_range : option (PlotType * PlotType);
  values : option nat;
  live : option bool
}.

(** [#[derive(Default)]]: every field [None]. *)
Definition default : t := mk None None None None None None None None None.

(** [Options { caption: Some(caption), path: Some(path), ..options }] *)
Definition with_caption_path (o : t) (c p : string) : t :=
  mk (Some c) (size o) (x_desc o) (y_desc o) (Some p)
     (x_range o) (y_range o) (values o) (live o).
End Options.

(** ** [Plot] *)

Definition Sample := (PlotType * PlotType)%type.

Module Plot.
Record t := mk {
  values : list (list Sample);
  names : list string;
  options : Options.t;
  iteration : N
}.

(** [Plot::new]: [vec![VecDeque::new(); N]], [names.to_vec()], iteration 0. *)
Definition new (names : list string) (options : Options.t) : t :=
  mk (replicate (length names) []) names options 0.

(** [VecDeque::pop_front], result discarded. *)
Definition pop_front (d : list Sample) : list Sample := tl d.

(** [VecDeque::push_back]. *)
Definition push_back (d : list Sample) (v : Sample) : list Sample := d ++ [v].

(** The body of the loop of [Plot::insert] for one buffer:
    [if let Some(window) = self.options.values {
       if self.values[i].len() == window { self.values[i].pop_front(); } }
     self.values[i].push_back(value);] *)
Definition push_window (window : option nat) (d : list Sample) (v : Sample)
  : list Sample :=
  let d := match window with
           | Some w => if Nat.eqb (length d) w then pop_front d else d
           | None => d
           end in
  push_back d v.

(** [for (i, &value) in values.iter().enumerate() { ... self.values[i] ... }]:
    [self.values[i]] panics when [i] is out of bounds. *)
Fixpoint insert_loop (window : option nat) (i : nat) (vals : list Sample)
         (bufs : list (list Sample)) : option (list (list Sample)) :=
  match vals with
  | [] => Some bufs
  | v :: vs =>
      match bufs !! i with
      | None => None
      | Some d => insert_loop window (S i) vs (<[i := push_window window d v]> bufs)
      end
  end.

(** [Plot::insert]: the loop, then [self.iteration += 1] on a [u64]. *)
Definition insert (p : t) (vals : list Sample) : option t :=
  match insert_loop (Options.values (options p)) 0 vals (values p) with
  | None => None
  | Some bufs => Some (mk bufs (names p) (options p) ((iteration p + 1) `mod` 2 ^ 64)%N)
  end.

(** [x_min], [x_max], [y_min], [y_max]: a fold over the flattened buffers. *)
Definition xs (p : t) : list PlotType := concat (map (map fst) (values p)).
Definition ys (p : t) : list PlotType := concat (map (map snd) (values p)).

Definition fold_min (l : list PlotType) : PlotType :=
  fold_left (fun acc val => if f64_lt val acc then val else acc) l f64_MAX.
Definition fold_max (l : list PlotType) : PlotType :=
  fold_left (fun acc val => if f64_gt val acc then val else acc) l f64_MIN.

Definition x_min (p : t) : PlotType := fold_min (xs p).
Definition x_max (p : t) : PlotType := fold_max (xs p).
Definition y_min (p : t) : PlotType := fold_min (ys p).
Definition y_max (p : t) : PlotType := fold_max (ys p).

(** The ranges passed to [build_cartesian_2d] in [Plot::plot]:
    [self.options.x_range.clone().unwrap_or(self.x_min()..self.x_max())]. *)
Definition x_axis (p : t) : PlotType * PlotType :=
  match Options.x_range (options p) with
  | Some r => r
  | None => (x_min p, x_max p)
  end.
Definition y_axis (p : t) : PlotType * PlotType :=
  match Options.y_range (options p) with
  | Some r => r
  | None => (y_min p, y_max p)
  end.
End Plot.

(** ** [PlotWrapper] and the [plot!] macro *)

(** [caption.replace("/", "-").replace(" ", "_")], one character at a time. *)
Fixpoint replace_char (a b : ascii) (s : string) : string :=
  match s with
  | EmptyString => EmptyString
  | String c s' => String (if ascii_dec c a then b else c) (replace_char a b s')
  end.

Definition default_path (caption : string) : string :=
  "plots/" +:+ replace_char " " "_" (replace_char "/" "-" caption) +:+ ".png".

Module PlotWrapper.
(** The piston [window] field is present exactly when the record is live;
    its creation and its redraws are modelled by [window_built] and by the
    [redraw_ok] parameter of [insert]. *)
Record t := mk {
  plot : Plot.t;
  live : bool
}.

Section WithFeature.
(** Whether the crate is built with the [live] feature. *)
Variable live_feature : bool.

(** [PlotWrapper::new]: the caption and the path are resolved here,
    once, when the record is created. *)
Definition new (names : list string) (location : Location) (options : Options.t) : t :=
  let caption := default (location_to_string location) (Options.caption options) in
  let path := default (default_path caption) (Options.path options) in
  let options := Options.with_caption_path options caption path in
  let live := if live_feature then default false (Options.live options) else false in
  mk (Plot.new names options) live.
End WithFeature.

Definition iteration (w : t) : N := Plot.iteration (plot w).

(** The [window] field of [PlotWrapper::new]: a live record builds its
    window with [WindowSettings::new(caption, size).build().unwrap()];
    [window_ok o] says whether that build succeeds for the resolved options
    [o]. [false] is a panic. *)
Definition window_built (window_ok : Options.t -> bool) (w : t) : bool :=
  if live w then window_ok (Plot.options (plot w)) else true.

(** [PlotWrapper::insert]: [self.plot.insert(values)], then, with the [live]
    feature, [plot_to_window], which redraws only when the record has a
    window, that is when it is live. [redraw_ok p] says whether
    [draw_piston_window(window, |b| { plot.plot(b).unwrap(); Ok(()) }).unwrap()]
    returns normally for the updated plot [p]; it panics once the window has
    been closed or when drawing fails. *)
Definition insert (redraw_ok : Plot.t -> bool) (w : t) (vals : list Sample) : option t :=
  match Plot.insert (plot w) vals with
  | None => None
  | Some p => if live w && negb (redraw_ok p) then None else Some (mk p (live w))
  end.
End PlotWrapper.

(** One argument of the macro: [$variable $(as $name)?] or
    [($x, $y) $(as $name)?]. Values are already coerced to [PlotType]. *)
Inductive Arg :=
| Var (ident : string) (value : PlotType) (rename : option string)
| Pair (x_ident y_ident : string) (x y : PlotType) (rename : option string).

(** [let name = stringify!(..); let name = $name; name]: the rename shadows. *)
Definition arg_name (a : Arg) : string :=
  match a with
  | Var i _ r => default i r
  | Pair _ yi _ _ r => default yi r
  end.

(** [(iteration.to_plot_type(), $variable.to_plot_type())] or
    [($x.to_plot_type(), $y.to_plot_type())]. *)
Definition arg_value (iteration : N) (a : Arg) : Sample :=
  match a with
  | Var _ v _ => (u64_to_f64 iteration, v)
  | Pair _ _ x y _ => (x, y)
  end.

(** One expansion of [plot!]: its location, arguments and [where] options. *)
Record Call := mkCall {
  call_loc : Location;
  call_args : list Arg;
  call_opts : Options.t
}.

Abbreviation Registry := (gmap Location PlotWrapper.t).

Section Registry.
Variable live_feature : bool.
(** Whether building the piston window succeeds, for the resolved options. *)
Variable window_ok : Options.t -> bool.
(** Whether redrawing the window of the record at a location returns
    normally, for the plot after the insert (its iteration counter tells the
    successive redraws apart). *)
Variable redraw_ok : Location -> Plot.t -> bool.

(** The body of [PLOTS.with(|plots| ...)]:
    [map.entry(location).or_insert_with(|| PlotWrapper::new(names, location, options))],
    then [plot.insert([...])] with the iteration read before. A panic of
    [PlotWrapper::new] (the window build) or of the insert is [None]. *)
Definition plot_call (c : Call) (m : Registry) : option Registry :=
  let ow := match m !! call_loc c with
            | Some w => Some w
            | None =>
                let w := PlotWrapper.new live_feature (map arg_name (call_args c))
                                         (call_loc c) (call_opts c) in
                if PlotWrapper.window_built window_ok w then Some w else None
            end in
  match ow with
  | None => None
  | Some w =>
      let iteration := PlotWrapper.iteration w in
      match PlotWrapper.insert (redraw_ok (call_loc c)) w
              (map (arg_value iteration) (call_args c)) with
      | None => None
      | Some w' => Some (<[call_loc c := w']> m)
      end
  end.

(** A thread running a sequence of macro invocations; a panic stops it. *)
Fixpoint run (cs : list Call) (m : Registry) : option Registry :=
  match cs with
  | [] => Some m
  | c :: cs' =>
      match plot_call c m with
      | None => None
      | Some m' => run cs' m'
      end
  end.
End Registry.

(** ** Teardown: [impl Drop for Plots] *)

(** How a render, or the whole teardown, ends: normally, in a panic, or never
    (plotters does not return). *)
Inductive Outcome := Finished | Panicked | Hangs.

Section Teardown.
(** [Path::parent] of the standard library. *)
Variable parent : string -> option string.
(** Whether [std::fs::create_dir_all] succeeds on a directory. *)
Variable dir_ok : string -> bool.
(** [Plot::plot] on a [BitMapBackend]: [Some true] is [Ok(())], [Some false]
    an [Err], [None] a call that does not return. *)
Variable draw : Plot.t -> option bool.

(** [Plot::plot_to_file] after the path is read:
    [std::fs::create_dir_all(&path.parent().unwrap()).unwrap()], then
    [self.plot(backend).unwrap()]. The bitmap is written when the backend is
    dropped at the end of [plot]; the code does not look at the outcome of
    that write, so it is not part of the result. *)
Definition render_path (path : string) (p : Plot.t) : Outcome :=
  match parent path with
  | None => Panicked
  | Some dir =>
      if dir_ok dir then
        match draw p with
        | Some true => Finished
        | Some false => Panicked
        | None => Hangs
        end
      else Panicked
  end.

(** [Plot::plot_to_file]: [self.options.path.as_ref().unwrap()] first. The
    [unwrap] of the caption in [log::info!] runs only when logging is
    enabled, and every record of the registry has a caption (X3). *)
Definition plot_to_file (p : Plot.t) : Outcome :=
  match Options.path (Plot.options p) with
  | None => Panicked
  | Some path => render_path path p
  end.

(** [for (_, plot) in self.plots.borrow().iter() { plot.plot_to_file(); }]
    with [PlotWrapper::plot_to_file] = [if !self.live { self.plot.plot_to_file(); }],
    over the records in iteration order. Returns the locations whose file
    rendering was started, in order, and how the loop ended. *)
Fixpoint drop_loop (ws : list (Location * PlotWrapper.t)) : list Location * Outcome :=
  match ws with
  | [] => ([], Finished)
  | (l, w) :: rest =>
      if PlotWrapper.live w then drop_loop rest
      else match plot_to_file (PlotWrapper.plot w) with
           | Finished => let '(tr, o) := drop_loop rest in (l :: tr, o)
           | o => ([l], o)
           end
  end.
End Teardown.

(** [ws] lists the entries of [m] in one of the orders a [HashMap] may
    iterate them. *)
Definition iteration_order (m : Registry) (ws : list (Location * PlotWrapper.t)) : Prop :=
  ws ≡ₚ map_to_list m.

(** The prefix of [s] before its last ['/'], if [s] has one. *)
Fixpoint last_sep_prefix (s : string) : option string :=
  match s with
  | EmptyString => None
  | String c s' =>
      match last_sep_prefix s' with
      | Some p => Some (String c p)
      | None => if ascii_dec c "/" then Some EmptyString else None
      end
  end.

(** [Path::parent] on Unix for a relative path without repeated or trailing
    separators and without [.] or [..] components: the part before the last
    ['/'], the empty path when there is no ['/'], and [None] for the empty
    path. *)
Definition parent_rel (path : string) : option string :=
  match path with
  | EmptyString => None
  | String _ _ => Some (default EmptyString (last_sep_prefix path))
  end.

(** * Properties *)

(** ** The window policy of one buffer *)

Lemma tl_drop {A} (k : nat) (l : list A) : tl (drop k l) = drop (S k) l.
Proof. revert k. induction l as [|x l IH]; intros [|k]; simpl; auto. Qed.

Lemma push_window_last (W : option nat) (d : list Sample) (v : Sample) :
  last (Plot.push_window W d v) = Some v.
Proof.
  unfold Plot.push_window, Plot.push_back.
  destruct W as [w|]; [destruct (Nat.eqb (length d) w)|]; apply last_snoc.
Qed.

Section Window.
Variable W : nat.

(** With a window of at least one sample, the buffer built by [N] pushes
    is the last [min N W] samples, oldest first. *)
Lemma push_window_fifo (vs : list Sample) :
  1 <= W ->
  fold_left (Plot.push_window (Some W)) vs [] = drop (length vs - W) vs.
Proof.
  intros HW. induction vs as [|v vs IH] using rev_ind; [done|].
  rewrite fold_left_app, IH, length_app; simpl.
  unfold Plot.push_window, Plot.push_back, Plot.pop_front.
  rewrite length_drop.
  destruct (Nat.eqb_spec (length vs - (length vs - W)) W) as [Heq|Hne].
  - rewrite tl_drop, drop_app_le by lia. do 2 f_equal. lia.
  - rewrite drop_app_le by lia. do 2 f_equal. lia.
Qed.
End Window.

(** ** The indexed loop of [Plot::insert] *)

Section InsertLoop.
Variable W : option nat.

Lemma insert_loop_length i vals bufs bufs' :
  Plot.insert_loop W i vals bufs = Some bufs' -> length bufs' = length bufs.
Proof.
  revert i bufs. induction vals as [|v vs IH]; intros i bufs H; simpl in H.
  - by injection H as <-.
  - destruct (bufs !! i) as [d|]; [|discriminate].
    apply IH in H. by rewrite H, length_insert.
Qed.

Lemma insert_loop_below i vals bufs bufs' :
  Plot.insert_loop W i vals bufs = Some bufs' ->
  forall j, j < i -> bufs' !! j = bufs !! j.
Proof.
  revert i bufs. induction vals as [|v vs IH]; intros i bufs H j Hj; simpl in H.
  - by injection H as <-.
  - destruct (bufs !! i) as [d|]; [|discriminate].
    rewrite (IH _ _ H j) by lia. apply list_lookup_insert_ne. lia.
Qed.

Lemma insert_loop_beyond i vals bufs bufs' :
  Plot.insert_loop W i vals bufs = Some bufs' ->
  forall j, i + length vals <= j -> bufs' !! j = bufs !! j.
Proof.
  revert i bufs. induction vals as [|v vs IH]; intros i bufs H j Hj; simpl in H, Hj.
  - by injection H as <-.
  - destruct (bufs !! i) as [d|]; [|discriminate].
    rewrite (IH _ _ H j) by lia. apply list_lookup_insert_ne. lia.
Qed.

(** Value [k] of the call lands at the end of buffer [i + k]. *)
Lemma insert_loop_spec i vals bufs bufs' :
  Plot.insert_loop W i vals bufs = Some bufs' ->
  forall k v, vals !! k = Some v ->
  exists d, bufs !! (i + k) = Some d /\
            bufs' !! (i + k) = Some (Plot.push_window W d v).
Proof.
  revert i bufs. induction vals as [|v0 vs IH]; intros i bufs H k v Hk; [done|].
  simpl in H. destruct (bufs !! i) as [d|] eqn:Hd; [|discriminate].
  destruct k as [|k]; simpl in Hk.
  - injection Hk as <-. exists d. rewrite Nat.add_0_r. split; [done|].
    rewrite (insert_loop_below _ _ _ _ H i) by lia.
    apply list_lookup_insert_eq. by eapply lookup_lt_Some.
  - destruct (IH _ _ H k v Hk) as (d' & Hd' & Hd'').
    exists d'. replace (i + S k) with (S i + k) by lia. split; [|done].
    rewrite list_lookup_insert_ne in Hd' by lia. done.
Qed.

(** No index is out of bounds when the values fit in the buffers. *)
Lemma insert_loop_some i vals bufs :
  i + length vals <= length bufs -> is_Some (Plot.insert_loop W i vals bufs).
Proof.
  revert i bufs. induction vals as [|v vs IH]; intros i bufs Hlen; simpl in *; [done|].
  destruct (lookup_lt_is_Some_2 bufs i) as [d Hd]; [lia|]. rewrite Hd.
  apply IH. rewrite length_insert. lia.
Qed.
End InsertLoop.

Lemma plot_insert_inv (p p' : Plot.t) vals :
  Plot.insert p vals = Some p' ->
  exists bufs, Plot.insert_loop (Options.values (Plot.options p)) 0 vals (Plot.values p) = Some bufs /\
    p' = Plot.mk bufs (Plot.names p) (Plot.options p) ((Plot.iteration p + 1) `mod` 2 ^ 64)%N.
Proof.
  unfold Plot.insert. destruct (Plot.insert_loop _ _ _ _) as [bufs|]; [|discriminate].
  intros H. injection H as <-. eauto.
Qed.

(** C10 *)

(** C10: on a plot whose buffers match its names ([Plot::new] builds one
    buffer per name), an [insert] with one value per name never indexes out
    of bounds, keeps one buffer per name, and appends value [i] (through the
    window policy) to buffer [i]. *)
Theorem insert_in_bounds (p : Plot.t) (vals : list Sample) :
  length (Plot.values p) = length (Plot.names p) ->
  length vals = length (Plot.names p) ->
  exists p', Plot.insert p vals = Some p' /\
    length (Plot.values p') = length (Plot.names p') /\
    Plot.names p' = Plot.names p /\
    forall i d v, Plot.values p !! i = Some d -> vals !! i = Some v ->
      Plot.values p' !! i = Some (Plot.push_window (Options.values (Plot.options p)) d v).
Proof.
  intros Hb Hv.
  destruct (insert_loop_some (Options.values (Plot.options p)) 0 vals (Plot.values p))
    as [bufs Hbufs]; [lia|].
  exists (Plot.mk bufs (Plot.names p) (Plot.options p) ((Plot.iteration p + 1) `mod` 2 ^ 64)%N).
  unfold Plot.insert. rewrite Hbufs. split; [done|]. simpl.
  split; [rewrite (insert_loop_length _ _ _ _ _ Hbufs); lia|]. split; [done|].
  intros i d v Hd Hvi.
  destruct (insert_loop_spec _ _ _ _ _ Hbufs i v Hvi) as (d' & Hd' & Hd''). simpl in *.
  congruence.
Qed.

Definition two_samples : list Sample :=
  [(S754_zero false, S754_zero false); (S754_zero false, S754_infinity false)].

Lemma insert_in_bounds_witness :
  length (Plot.values (Plot.new ["a"; "b"] Options.default)) =
    length (Plot.names (Plot.new ["a"; "b"] Options.default)) /\
  length two_samples = length (Plot.names (Plot.new ["a"; "b"] Options.default)) /\
  exists p', Plot.insert (Plot.new ["a"; "b"] Options.default) two_samples = Some p' /\
    length (Plot.values p') = length (Plot.names p') /\
    Plot.names p' = Plot.names (Plot.new ["a"; "b"] Options.default) /\
    forall i d v, Plot.values (Plot.new ["a"; "b"] Options.default) !! i = Some d ->
      two_samples !! i = Some v ->
      Plot.values p' !! i = Some (Plot.push_window
        (Options.values (Plot.options (Plot.new ["a"; "b"] Options.default))) d v).
Proof.
  split; [reflexivity|]. split; [reflexivity|].
  apply insert_in_bounds; reflexivity.
Defined.

(** ** The registry *)

(** What a record keeps from its creation: names, options, live flag. *)
Definition config (w : PlotWrapper.t) : list string * Options.t * bool :=
  (Plot.names (PlotWrapper.plot w), Plot.options (PlotWrapper.plot w), PlotWrapper.live w).

Definition succ_u64 (n : N) : N := ((n + 1) `mod` 2 ^ 64)%N.

Lemma wrapper_insert_inv (rd : Plot.t -> bool) (w w' : PlotWrapper.t) vals :
  PlotWrapper.insert rd w vals = Some w' ->
  config w' = config w /\
  PlotWrapper.iteration w' = succ_u64 (PlotWrapper.iteration w) /\
  Plot.insert_loop (Options.values (Plot.options (PlotWrapper.plot w))) 0 vals
    (Plot.values (PlotWrapper.plot w)) = Some (Plot.values (PlotWrapper.plot w')).
Proof.
  unfold PlotWrapper.insert. destruct (Plot.insert _ _) as [p|] eqn:Hp; [|discriminate].
  destruct (_ && _); [discriminate|]. intros H. injection H as <-.
  destruct (plot_insert_inv _ _ _ Hp) as (bufs & Hl & ->). done.
Qed.

Section Registry.
Variable live_feature : bool.
Variable window_ok : Options.t -> bool.
Variable redraw_ok : Location -> Plot.t -> bool.

(** The record a call works on: the stored one, or a fresh one. *)
Definition record_of (c : Call) (m : Registry) : PlotWrapper.t :=
  match m !! call_loc c with
  | Some w => w
  | None => PlotWrapper.new live_feature (map arg_name (call_args c)) (call_loc c) (call_opts c)
  end.

Lemma plot_call_inv c m m' :
  plot_call live_feature window_ok redraw_ok c m = Some m' ->
  exists w', PlotWrapper.insert (redraw_ok (call_loc c)) (record_of c m)
               (map (arg_value (PlotWrapper.iteration (record_of c m))) (call_args c)) = Some w' /\
             m' = <[call_loc c := w']> m.
Proof.
  unfold plot_call, record_of.
  destruct (m !! call_loc c) as [w|].
  - destruct (PlotWrapper.insert _ _ _) as [w'|]; [|discriminate].
    intros H. injection H as <-. eauto.
  - destruct (PlotWrapper.window_built _ _); [|discriminate].
    destruct (PlotWrapper.insert _ _ _) as [w'|]; [|discriminate].
    intros H. injection H as <-. eauto.
Qed.

(** A call depends on the registry only through the entry at its location. *)
Lemma plot_call_congr c m1 m2 m1' :
  m1 !! call_loc c = m2 !! call_loc c ->
  plot_call live_feature window_ok redraw_ok c m1 = Some m1' ->
  exists m2', plot_call live_feature window_ok redraw_ok c m2 = Some m2' /\
              m2' !! call_loc c = m1' !! call_loc c.
Proof.
  intros Heq H. unfold plot_call in *. rewrite <- Heq.
  destruct (m1 !! call_loc c) as [w|];
    [|destruct (PlotWrapper.window_built _ _); [|discriminate]];
    (destruct (PlotWrapper.insert _ _ _) as [w'|]; [|discriminate]);
    injection H as <-; (eexists; split; [reflexivity|]); by rewrite !lookup_insert_eq.
Qed.

Lemma plot_call_other c m m' l :
  plot_call live_feature window_ok redraw_ok c m = Some m' -> call_loc c <> l -> m' !! l = m !! l.
Proof.
  intros H Hne. destruct (plot_call_inv _ _ _ H) as (w' & _ & ->).
  by apply lookup_insert_ne.
Qed.

Lemma run_app cs1 cs2 m :
  run live_feature window_ok redraw_ok (cs1 ++ cs2) m =
  match run live_feature window_ok redraw_ok cs1 m with
  | Some m1 => run live_feature window_ok redraw_ok cs2 m1
  | None => None
  end.
Proof.
  revert m. induction cs1 as [|c cs1 IH]; intros m; simpl; [done|].
  destruct (plot_call _ _ _ c m); [apply IH | done].
Qed.

(** Calls at other locations leave an entry alone. *)
Lemma run_other cs m m' l :
  run live_feature window_ok redraw_ok cs m = Some m' ->
  Forall (fun c => call_loc c <> l) cs -> m' !! l = m !! l.
Proof.
  revert m. induction cs as [|c cs IH]; intros m H Hall; simpl in H.
  - by injection H as <-.
  - inversion Hall as [|? ? Hc Hrest]; subst.
    destruct (plot_call _ _ _ c m) as [m1|] eqn:H1; [|discriminate].
    rewrite (IH _ H Hrest). by apply (plot_call_other c).
Qed.

(** The entry at [l] after a run is the entry after the calls at [l]. *)
Lemma run_local cs l m1 m2 m1' :
  m1 !! l = m2 !! l ->
  run live_feature window_ok redraw_ok cs m1 = Some m1' ->
  exists m2', run live_feature window_ok redraw_ok (filter (fun c => call_loc c = l) cs) m2 = Some m2' /\
              m2' !! l = m1' !! l.
Proof.
  revert m1 m2. induction cs as [|c cs IH]; intros m1 m2 Heq H; simpl in H.
  - injection H as <-. exists m2. simpl. done.
  - destruct (plot_call _ _ _ c m1) as [m1a|] eqn:H1; [|discriminate].
    rewrite filter_cons. case_decide as Hc.
    + subst l. destruct (plot_call_congr c m1 m2 m1a Heq H1) as (m2a & H2 & Heqa).
      simpl. rewrite H2. apply (IH m1a m2a); [done | done].
    + apply (IH m1a m2); [|done]. rewrite <- Heq. by apply (plot_call_other c).
Qed.

(** Entries are created by the first call at their location and never removed. *)
Lemma run_dom cs m m' l :
  run live_feature window_ok redraw_ok cs m = Some m' ->
  is_Some (m' !! l) <-> is_Some (m !! l) \/ exists c, c ∈ cs /\ call_loc c = l.
Proof.
  revert m. induction cs as [|c cs IH]; intros m H; simpl in H.
  - injection H as <-. split; [auto|]. intros [?|(c & Hc & _)]; [done|set_solver].
  - destruct (plot_call _ _ _ c m) as [m1|] eqn:H1; [|discriminate].
    rewrite (IH _ H). destruct (plot_call_inv _ _ _ H1) as (w' & _ & ->).
    rewrite lookup_insert. case_decide as Hl.
    + split; [intros _; right; exists c; split; [left|]; done | intros _; left; done].
    + split.
      * intros [Hs|(c' & Hc' & Hl')]; [by left|right; exists c'; split; [by right|done]].
      * intros [Hs|(c' & Hc' & Hl')]; [by left|].
        apply elem_of_cons in Hc' as [->|Hc']; [done|]. right. eauto.
Qed.

Lemma run_keeps_config cs m m' l w :
  run live_feature window_ok redraw_ok cs m = Some m' -> m !! l = Some w ->
  exists w', m' !! l = Some w' /\ config w' = config w.
Proof.
  revert m w. induction cs as [|c cs IH]; intros m w H Hw; simpl in H.
  - injection H as <-. eauto.
  - destruct (plot_call _ _ _ c m) as [m1|] eqn:H1; [|discriminate].
    destruct (plot_call_inv _ _ _ H1) as (w1 & Hins & ->).
    destruct (decide (call_loc c = l)) as [<-|Hne].
    + destruct (IH _ w1 H (lookup_insert_eq _ _ _)) as (w' & Hw' & Hc).
      exists w'. split; [done|]. rewrite Hc.
      destruct (wrapper_insert_inv _ _ _ _ Hins) as [-> _].
      unfold record_of. by rewrite Hw.
    + apply (IH _ w H). by rewrite lookup_insert_ne.
Qed.

(** The iteration counter at [l], [0] for a location never seen. *)
Definition iter_at (m : Registry) (l : Location) : N :=
  match m !! l with Some w => PlotWrapper.iteration w | None => 0%N end.

Lemma record_of_iteration c m :
  PlotWrapper.iteration (record_of c m) = iter_at m (call_loc c).
Proof. unfold record_of, iter_at. by destruct (m !! call_loc c). Qed.

Lemma run_iter cs m m' l :
  run live_feature window_ok redraw_ok cs m = Some m' ->
  iter_at m' l = Nat.iter (length (filter (fun c => call_loc c = l) cs)) succ_u64 (iter_at m l).
Proof.
  revert m. induction cs as [|c cs IH]; intros m H; simpl in H.
  - by injection H as <-.
  - destruct (plot_call _ _ _ c m) as [m1|] eqn:H1; [|discriminate].
    rewrite (IH _ H), filter_cons.
    destruct (plot_call_inv _ _ _ H1) as (w1 & Hins & ->).
    destruct (wrapper_insert_inv _ _ _ _ Hins) as (_ & Hit & _).
    case_decide as Hl.
    + subst l. simpl length. rewrite Nat.iter_succ_r. f_equal.
      unfold iter_at at 1. rewrite lookup_insert_eq, Hit. by rewrite record_of_iteration.
    + f_equal. unfold iter_at. by rewrite lookup_insert_ne.
Qed.
End Registry.

Lemma iter_succ_u64 (k : nat) :
  (N.of_nat k < 2 ^ 64)%N -> Nat.iter k succ_u64 0%N = N.of_nat k.
Proof.
  induction k as [|k IH]; intros Hk; [done|].
  rewrite Nat.iter_succ, IH by lia. unfold succ_u64.
  rewrite N.mod_small by lia. lia.
Qed.

(** ** A concrete run: two call sites declaring the same variable name *)

Definition demo_l1 : Location := mkLocation "examples/demo.rs" 5 9.
Definition demo_l2 : Location := mkLocation "examples/demo.rs" 6 9.

Definition demo_opts (c : string) : Options.t :=
  Options.mk (Some c) None None None None None None (Some 2) None.

Definition demo_pre : list Call :=
  [mkCall demo_l1 [Var "a" (u64_to_f64 3) None; Pair "x" "b" (u64_to_f64 1) (u64_to_f64 4) None]
          (demo_opts "first");
   mkCall demo_l2 [Var "a" (u64_to_f64 9) None] Options.default].

Definition demo_last : Call :=
  mkCall demo_l1 [Var "a" (u64_to_f64 5) None; Pair "x" "b" (u64_to_f64 2) (u64_to_f64 6) None]
         (demo_opts "second").

Definition demo_calls : list Call := demo_pre ++ [demo_last].

(** Window builds and redraws that succeed; without the [live] feature
    they are never consulted. *)
Definition window_ok_all (o : Options.t) : bool := true.
Definition redraw_ok_all (l : Location) (p : Plot.t) : bool := true.

Definition demo_registry : Registry :=
  default ∅ (run false window_ok_all redraw_ok_all demo_calls ∅).

Definition demo_w1 : PlotWrapper.t :=
  default (PlotWrapper.new false [] demo_l1 Options.default) (demo_registry !! demo_l1).

Lemma default_Some {A} (d : A) (o : option A) :
  (if o then true else false) = true -> o = Some (default d o).
Proof. by destruct o. Qed.

Lemma demo_run : run false window_ok_all redraw_ok_all demo_calls ∅ = Some demo_registry.
Proof. unfold demo_registry. apply default_Some. vm_compute. reflexivity. Qed.

Lemma demo_lookup_l1 : demo_registry !! demo_l1 = Some demo_w1.
Proof. unfold demo_w1. apply default_Some. vm_compute. reflexivity. Qed.

(** C6 *)

(** C6: after any run of macro invocations from an empty registry, the entry
    at location [l] exists exactly when some invocation happened at [l]; it
    keeps the names, options and live flag built by [PlotWrapper::new] from
    the first invocation at [l], whatever the later invocations pass; an
    entry present after a prefix of the run is still present at the end;
    and the entry at [l] is the one obtained by running only the
    invocations at [l], so two locations never share a record. *)
Theorem registry_one_record_per_location (live_feature : bool) (window_ok : Options.t -> bool)
    (redraw_ok : Location -> Plot.t -> bool) (cs : list Call)
    (m : Registry) (l : Location) :
  run live_feature window_ok redraw_ok cs ∅ = Some m ->
  (is_Some (m !! l) <-> exists c, c ∈ cs /\ call_loc c = l) /\
  (forall pre c post, cs = pre ++ c :: post -> call_loc c = l ->
     Forall (fun c' => call_loc c' <> l) pre ->
     exists w, m !! l = Some w /\
       config w = config (PlotWrapper.new live_feature (map arg_name (call_args c)) l (call_opts c))) /\
  (forall pre post, cs = pre ++ post ->
     exists m1, run live_feature window_ok redraw_ok pre ∅ = Some m1 /\ (is_Some (m1 !! l) -> is_Some (m !! l))) /\
  (exists m', run live_feature window_ok redraw_ok (filter (fun c => call_loc c = l) cs) ∅ = Some m' /\ m' !! l = m !! l).
Proof.
  intros Hrun. split; [|split; [|split]].
  - rewrite (run_dom _ _ _ _ _ _ l Hrun), lookup_empty. split; [|by right].
    intros [Hs|?]; [by destruct Hs|done].
  - intros pre c post -> Hl Hpre.
    rewrite run_app in Hrun. destruct (run _ _ _ pre ∅) as [m1|] eqn:Hm1; [|discriminate].
    simpl in Hrun. destruct (plot_call _ _ _ c m1) as [m2|] eqn:Hm2; [|discriminate].
    assert (Hnone : m1 !! l = None).
    { rewrite (run_other _ _ _ _ _ _ _ Hm1 Hpre). apply lookup_empty. }
    destruct (plot_call_inv _ _ _ _ _ _ Hm2) as (w1 & Hins & ->).
    destruct (run_keeps_config _ _ _ _ _ _ l w1 Hrun) as (w & Hw & Hc).
    { subst l. apply lookup_insert_eq. }
    exists w. split; [done|]. rewrite Hc.
    destruct (wrapper_insert_inv _ _ _ _ Hins) as [-> _].
    unfold record_of. subst l. by rewrite Hnone.
  - intros pre post ->. rewrite run_app in Hrun.
    destruct (run _ _ _ pre ∅) as [m1|] eqn:Hm1; [|discriminate].
    exists m1. split; [done|]. intros Hs. rewrite (run_dom _ _ _ _ _ _ l Hrun). by left.
  - destruct (run_local _ _ _ cs l ∅ ∅ m eq_refl Hrun) as (m' & H' & Heq). eauto.
Qed.

Lemma registry_one_record_per_location_witness :
  run false window_ok_all redraw_ok_all demo_calls ∅ = Some demo_registry /\
  (is_Some (demo_registry !! demo_l1) <-> exists c, c ∈ demo_calls /\ call_loc c = demo_l1) /\
  (forall pre c post, demo_calls = pre ++ c :: post -> call_loc c = demo_l1 ->
     Forall (fun c' => call_loc c' <> demo_l1) pre ->
     exists w, demo_registry !! demo_l1 = Some w /\
       config w = config (PlotWrapper.new false (map arg_name (call_args c)) demo_l1 (call_opts c))) /\
  (forall pre post, demo_calls = pre ++ post ->
     exists m1, run false window_ok_all redraw_ok_all pre ∅ = Some m1 /\
       (is_Some (m1 !! demo_l1) -> is_Some (demo_registry !! demo_l1))) /\
  (exists m', run false window_ok_all redraw_ok_all (filter (fun c => call_loc c = demo_l1) demo_calls) ∅ = Some m' /\
     m' !! demo_l1 = demo_registry !! demo_l1).
Proof.
  pose proof demo_run as H.
  split; [exact H|]. exact (registry_one_record_per_location false window_ok_all redraw_ok_all demo_calls demo_registry demo_l1 H).
Defined.

(** C7 *)

(** C7: after a run from an empty registry, the iteration counter of the
    record at [l] equals the number [K] of invocations made at [l], whatever
    the number of values each invocation inserts (for [K] below [2^64], the
    range of the [u64] counter). *)
Theorem iteration_counts_calls (live_feature : bool) (window_ok : Options.t -> bool)
    (redraw_ok : Location -> Plot.t -> bool) (cs : list Call) (m : Registry)
    (l : Location) (w : PlotWrapper.t) :
  run live_feature window_ok redraw_ok cs ∅ = Some m -> m !! l = Some w ->
  (N.of_nat (length (filter (fun c => call_loc c = l) cs)) < 2 ^ 64)%N ->
  PlotWrapper.iteration w = N.of_nat (length (filter (fun c => call_loc c = l) cs)).
Proof.
  intros Hrun Hw Hk.
  pose proof (run_iter _ _ _ _ _ _ l Hrun) as Hit.
  unfold iter_at in Hit. rewrite Hw, lookup_empty in Hit. rewrite Hit.
  by apply iter_succ_u64.
Qed.

Lemma iteration_counts_calls_witness :
  run false window_ok_all redraw_ok_all demo_calls ∅ = Some demo_registry /\
  demo_registry !! demo_l1 = Some demo_w1 /\
  (N.of_nat (length (filter (fun c => call_loc c = demo_l1) demo_calls)) < 2 ^ 64)%N /\
  PlotWrapper.iteration demo_w1 = N.of_nat (length (filter (fun c => call_loc c = demo_l1) demo_calls)).
Proof.
  pose proof demo_run as H1.
  pose proof demo_lookup_l1 as H2.
  assert (H3 : (N.of_nat (length (filter (fun c => call_loc c = demo_l1) demo_calls)) < 2 ^ 64)%N)
    by (vm_compute; reflexivity).
  split; [exact H1|]. split; [exact H2|]. split; [exact H3|].
  exact (iteration_counts_calls false window_ok_all redraw_ok_all demo_calls demo_registry demo_l1 demo_w1 H1 H2 H3).
Defined.

(** C8 *)

Lemma lookup_map_Some {A B} (f : A -> B) (l : list A) (i : nat) (a : A) :
  l !! i = Some a -> map f l !! i = Some (f a).
Proof.
  revert i. induction l as [|x l IH]; intros [|i] H; simpl in *; try discriminate.
  - by injection H as ->.
  - by apply IH.
Qed.

(** C8: at the [K]-th invocation at a location (after [K - 1] earlier ones,
    [K] below [2^64]), the sample appended last to buffer [i] has, for a bare
    variable, x equal to the iteration counter read before the increment
    ([K - 1] converted to [f64]), and for an explicit pair [(x, y)], the
    user-supplied [x]. *)
Theorem recorded_x_coordinate (live_feature : bool) (window_ok : Options.t -> bool)
    (redraw_ok : Location -> Plot.t -> bool) (cs : list Call) (c : Call)
    (m : Registry) (w : PlotWrapper.t) :
  run live_feature window_ok redraw_ok (cs ++ [c]) ∅ = Some m ->
  m !! call_loc c = Some w ->
  (N.of_nat (length (filter (fun c' => call_loc c' = call_loc c) cs)) < 2 ^ 64)%N ->
  forall i a, call_args c !! i = Some a ->
  exists d, Plot.values (PlotWrapper.plot w) !! i = Some d /\
    last d = Some (match a with
                   | Var _ y _ =>
                       (u64_to_f64 (N.of_nat (length (filter (fun c' => call_loc c' = call_loc c) cs))), y)
                   | Pair _ _ x y _ => (x, y)
                   end).
Proof.
  intros Hrun Hw Hk i a Ha.
  rewrite run_app in Hrun. destruct (run _ _ _ cs ∅) as [m1|] eqn:Hm1; [|discriminate].
  simpl in Hrun. destruct (plot_call _ _ _ c m1) as [m2|] eqn:Hm2; [|discriminate].
  injection Hrun as <-.
  destruct (plot_call_inv _ _ _ _ _ _ Hm2) as (w' & Hins & ->).
  rewrite lookup_insert_eq in Hw. injection Hw as <-.
  destruct (wrapper_insert_inv _ _ _ _ Hins) as (_ & _ & Hloop).
  set (it := PlotWrapper.iteration (record_of live_feature c m1)) in *.
  destruct (insert_loop_spec _ _ _ _ _ Hloop i (arg_value it a)) as (d & Hd & Hd').
  { by apply lookup_map_Some. }
  simpl in Hd'. eexists; split; [exact Hd'|]. rewrite push_window_last.
  assert (Hit : it = N.of_nat (length (filter (fun c' => call_loc c' = call_loc c) cs))).
  { unfold it. rewrite record_of_iteration, (run_iter _ _ _ _ _ _ _ Hm1).
    unfold iter_at; rewrite lookup_empty. by apply iter_succ_u64. }
  rewrite Hit. by destruct a.
Qed.

Lemma recorded_x_coordinate_witness :
  run false window_ok_all redraw_ok_all (demo_pre ++ [demo_last]) ∅ = Some demo_registry /\
  demo_registry !! call_loc demo_last = Some demo_w1 /\
  (N.of_nat (length (filter (fun c' => call_loc c' = call_loc demo_last) demo_pre)) < 2 ^ 64)%N /\
  forall i a, call_args demo_last !! i = Some a ->
  exists d, Plot.values (PlotWrapper.plot demo_w1) !! i = Some d /\
    last d = Some (match a with
                   | Var _ y _ =>
                       (u64_to_f64 (N.of_nat (length (filter (fun c' => call_loc c' = call_loc demo_last)
                                                       demo_pre))), y)
                   | Pair _ _ x y _ => (x, y)
                   end).
Proof.
  pose proof demo_run as H1. pose proof demo_lookup_l1 as H2.
  assert (H3 : (N.of_nat (length (filter (fun c' => call_loc c' = call_loc demo_last) demo_pre))
                < 2 ^ 64)%N) by (vm_compute; reflexivity).
  split; [exact H1|]. split; [exact H2|]. split; [exact H3|].
  exact (recorded_x_coordinate false window_ok_all redraw_ok_all demo_pre demo_last demo_registry demo_w1 H1 H2 H3).
Defined.

(** C1 *)

(** A call site with [values = 0usize]. *)
Definition window0_call : Call :=
  mkCall demo_l1 [Var "y" (u64_to_f64 7) None]
         (Options.mk None None None None None None None (Some 0) None).

(** C1: with a window of [0] the check [len() == window] only fires on an
    empty buffer, where [pop_front] removes nothing, so the buffer grows:
    after three insertions it holds three samples, not [min 3 0 = 0]. *)
Theorem window_zero_keeps_growing (window_ok : Options.t -> bool)
    (redraw_ok : Location -> Plot.t -> bool) :
  option_map (fun m => option_map (fun w => map length (Plot.values (PlotWrapper.plot w)))
                                  (m !! demo_l1))
             (run false window_ok redraw_ok [window0_call; window0_call; window0_call] ∅)
  = Some (Some [3]).
Proof. vm_compute. reflexivity. Qed.

(** ** Teardown *)

Definition nonlive (lw : Location * PlotWrapper.t) : Prop := PlotWrapper.live lw.2 = false.

Lemma iteration_order_NoDup m ws : iteration_order m ws -> NoDup ws.*1.
Proof. unfold iteration_order. intros ->. apply NoDup_fst_map_to_list. Qed.


Section TeardownProofs.
Variable parent : string -> option string.
Variable dir_ok : string -> bool.
Variable draw : Plot.t -> option bool.




(** A render that does not finish ends the loop: later records are not
    rendered. *)
Lemma drop_loop_abort pre l w post :
  Forall (fun lw => PlotWrapper.live lw.2 = true \/
                    plot_to_file parent dir_ok draw (PlotWrapper.plot lw.2) = Finished) pre ->
  PlotWrapper.live w = false ->
  plot_to_file parent dir_ok draw (PlotWrapper.plot w) <> Finished ->
  drop_loop parent dir_ok draw (pre ++ (l, w) :: post) =
    ((filter nonlive pre).*1 ++ [l], plot_to_file parent dir_ok draw (PlotWrapper.plot w)).
Proof.
  intros Hpre Hlive Hfail. induction Hpre as [|[l' w'] pre Hw' Hpre IH]; simpl.
  - rewrite Hlive. by destruct (plot_to_file parent dir_ok draw (PlotWrapper.plot w)).
  - rewrite filter_cons. case_decide as Hnl; unfold nonlive in Hnl; simpl in Hnl.
    + rewrite Hnl. simpl in Hw'. destruct Hw' as [?|Hok]; [congruence|]. by rewrite Hok, IH.
    + destruct (PlotWrapper.live w'); [exact IH | congruence].
Qed.
End TeardownProofs.

(** Three call sites, each called twice with an explicit pair; the first
    one writes to ["out/demo.png"], the others to their default paths in
    [plots]. *)
Definition demo_l3 : Location := mkLocation "examples/demo.rs" 7 9.

Definition out_opts : Options.t :=
  Options.mk None None None None (Some "out/demo.png") None None None None.

Definition pair_call (l : Location) (o : Options.t) (v : N) : Call :=
  mkCall l [Pair "x" "y" (u64_to_f64 v) (u64_to_f64 v) None] o.

Definition teardown_calls : list Call :=
  [pair_call demo_l1 out_opts 0; pair_call demo_l2 Options.default 0;
   pair_call demo_l3 Options.default 0; pair_call demo_l1 out_opts 1;
   pair_call demo_l2 Options.default 1; pair_call demo_l3 Options.default 1].

Definition teardown_registry : Registry :=
  default ∅ (run false window_ok_all redraw_ok_all teardown_calls ∅).

Definition td_w (l : Location) : PlotWrapper.t :=
  default (PlotWrapper.new false [] l Options.default) (teardown_registry !! l).

Definition dir_fails_plots (d : string) : bool := bool_decide (d <> "plots").

(** Plotters draws the charts of these records, whose ranges are [0..1]. *)
Definition draw_ok (p : Plot.t) : option bool := Some true.

Lemma teardown_run : run false window_ok_all redraw_ok_all teardown_calls ∅ = Some teardown_registry.
Proof. unfold teardown_registry. apply default_Some. vm_compute. reflexivity. Qed.

Lemma teardown_listing :
  map_to_list teardown_registry =
    [(demo_l2, td_w demo_l2); (demo_l1, td_w demo_l1); (demo_l3, td_w demo_l3)].
Proof. vm_compute. reflexivity. Qed.

(** C2 *)




(** C3 *)

(** C3 (as amended): a render failure is not isolated. In any iteration
    order of the map, when the first non-live record whose render does not
    finish (it panics, or plotters does not return) is [l], the teardown
    renders the non-live records before it, then starts [l] and ends there
    with [l]'s outcome: no record after [l] is rendered. *)
Theorem teardown_failure_aborts (parent : string -> option string)
    (dir_ok : string -> bool) (draw : Plot.t -> option bool) (m : Registry)
    (ws pre : list (Location * PlotWrapper.t)) (l : Location) (w : PlotWrapper.t)
    (post : list (Location * PlotWrapper.t)) :
  iteration_order m ws -> ws = pre ++ (l, w) :: post ->
  Forall (fun lw => PlotWrapper.live lw.2 = true \/
                    plot_to_file parent dir_ok draw (PlotWrapper.plot lw.2) = Finished) pre ->
  PlotWrapper.live w = false ->
  plot_to_file parent dir_ok draw (PlotWrapper.plot w) <> Finished ->
  drop_loop parent dir_ok draw ws =
    ((filter nonlive pre).*1 ++ [l], plot_to_file parent dir_ok draw (PlotWrapper.plot w)) /\
  forall l' w', (l', w') ∈ post -> l' ∉ (drop_loop parent dir_ok draw ws).1.
Proof.
  intros Hws Hsplit Hpre Hlive Hfail.
  assert (Hd : drop_loop parent dir_ok draw ws =
    ((filter nonlive pre).*1 ++ [l], plot_to_file parent dir_ok draw (PlotWrapper.plot w))).
  { rewrite Hsplit. by apply drop_loop_abort. }
  split; [done|]. intros l' w' Hin. rewrite Hd. simpl.
  pose proof (iteration_order_NoDup m ws Hws) as Hnd. rewrite Hsplit, fmap_app in Hnd. simpl in Hnd.
  apply NoDup_app in Hnd as (_ & Hdisj & Hnd).
  apply NoDup_cons in Hnd as [Hl Hpost].
  assert (Hl' : l' ∈ post.*1) by (apply list_elem_of_fmap; exists (l', w'); done).
  intros [Hp|Hs]%elem_of_app.
  - apply (Hdisj l'); [|by right].
    apply list_elem_of_fmap in Hp as ([l'' w''] & -> & Hf).
    apply list_elem_of_filter in Hf as [_ Hf]. apply list_elem_of_fmap. by exists (l'', w'').
  - apply list_elem_of_singleton in Hs as ->. done.
Qed.

Lemma teardown_failure_aborts_witness :
  iteration_order teardown_registry
    [(demo_l1, td_w demo_l1); (demo_l2, td_w demo_l2); (demo_l3, td_w demo_l3)] /\
  [(demo_l1, td_w demo_l1); (demo_l2, td_w demo_l2); (demo_l3, td_w demo_l3)] =
    [(demo_l1, td_w demo_l1)] ++ (demo_l2, td_w demo_l2) :: [(demo_l3, td_w demo_l3)] /\
  Forall (fun lw : Location * PlotWrapper.t => PlotWrapper.live lw.2 = true \/
            plot_to_file parent_rel dir_fails_plots draw_ok (PlotWrapper.plot lw.2) = Finished)
         [(demo_l1, td_w demo_l1)] /\
  PlotWrapper.live (td_w demo_l2) = false /\
  plot_to_file parent_rel dir_fails_plots draw_ok (PlotWrapper.plot (td_w demo_l2)) <> Finished /\
  drop_loop parent_rel dir_fails_plots draw_ok
    [(demo_l1, td_w demo_l1); (demo_l2, td_w demo_l2); (demo_l3, td_w demo_l3)] =
    ((filter nonlive [(demo_l1, td_w demo_l1)]).*1 ++ [demo_l2],
     plot_to_file parent_rel dir_fails_plots draw_ok (PlotWrapper.plot (td_w demo_l2))) /\
  forall l' w', (l', w') ∈ [(demo_l3, td_w demo_l3)] ->
    l' ∉ (drop_loop parent_rel dir_fails_plots draw_ok
            [(demo_l1, td_w demo_l1); (demo_l2, td_w demo_l2); (demo_l3, td_w demo_l3)]).1.
Proof.
  assert (H1 : iteration_order teardown_registry
    [(demo_l1, td_w demo_l1); (demo_l2, td_w demo_l2); (demo_l3, td_w demo_l3)]).
  { unfold iteration_order. rewrite teardown_listing. apply Permutation_swap. }
  assert (H2 : [(demo_l1, td_w demo_l1); (demo_l2, td_w demo_l2); (demo_l3, td_w demo_l3)] =
    [(demo_l1, td_w demo_l1)] ++ (demo_l2, td_w demo_l2) :: [(demo_l3, td_w demo_l3)])
    by reflexivity.
  assert (H3 : Forall (fun lw : Location * PlotWrapper.t => PlotWrapper.live lw.2 = true \/
            plot_to_file parent_rel dir_fails_plots draw_ok (PlotWrapper.plot lw.2) = Finished)
         [(demo_l1, td_w demo_l1)]).
  { constructor; [|constructor]. right. vm_compute. reflexivity. }
  assert (H4 : PlotWrapper.live (td_w demo_l2) = false) by (vm_compute; reflexivity).
  assert (H5 : plot_to_file parent_rel dir_fails_plots draw_ok (PlotWrapper.plot (td_w demo_l2))
               <> Finished) by (vm_compute; discriminate).
  split; [exact H1|]. split; [exact H2|]. split; [exact H3|]. split; [exact H4|].
  split; [exact H5|].
  exact (teardown_failure_aborts parent_rel dir_fails_plots draw_ok teardown_registry _
           [(demo_l1, td_w demo_l1)] demo_l2 (td_w demo_l2) [(demo_l3, td_w demo_l3)]
           H1 H2 H3 H4 H5).
Defined.

(** C3: [plots] cannot be created but [out] can. When the map visits
    [demo_l2] first, its render panics; the record at [demo_l1], whose own
    render would finish, is never rendered. *)
Lemma teardown_failure_not_isolated :
  iteration_order teardown_registry
    [(demo_l2, td_w demo_l2); (demo_l1, td_w demo_l1); (demo_l3, td_w demo_l3)] /\
  drop_loop parent_rel dir_fails_plots draw_ok
    [(demo_l2, td_w demo_l2); (demo_l1, td_w demo_l1); (demo_l3, td_w demo_l3)] =
    ([demo_l2], Panicked) /\
  plot_to_file parent_rel dir_fails_plots draw_ok (PlotWrapper.plot (td_w demo_l1)) = Finished /\
  teardown_registry !! demo_l1 = Some (td_w demo_l1) /\
  PlotWrapper.live (td_w demo_l1) = false /\
  demo_l1 ∉ [demo_l2].
Proof.
  split.
  { unfold iteration_order. rewrite teardown_listing. reflexivity. }
  split; [vm_compute; reflexivity|]. split; [vm_compute; reflexivity|].
  split; [vm_compute; reflexivity|]. split; [vm_compute; reflexivity|].
  rewrite list_elem_of_singleton. discriminate.
Qed.

(** ** IEEE order on non-NaN [f64] values *)

(** A lexicographic key that orders non-NaN floats as [SFcompare] does
    ([+0] and [-0] share a key: they compare equal). *)
Definition fkey (f : PlotType) : Z * Z * Z :=
  match f with
  | S754_infinity true => (0, 0, 0)
  | S754_finite true m e => (1, - e, Zneg m)
  | S754_zero _ => (2, 0, 0)
  | S754_nan => (2, 0, 0)
  | S754_finite false m e => (3, e, Zpos m)
  | S754_infinity false => (4, 0, 0)
  end%Z.

Definition lexcmp (a b : Z * Z * Z) : comparison :=
  match Z.compare a.1.1 b.1.1 with
  | Eq => match Z.compare a.1.2 b.1.2 with Eq => Z.compare a.2 b.2 | c => c end
  | c => c
  end.

Ltac zcmp_cases :=
  repeat match goal with |- context [Z.compare ?x ?y] => destruct (Z.compare_spec x y) end;
  intros; try reflexivity; try discriminate; try congruence; try lia.

Lemma lexcmp_antisym a b : lexcmp b a = CompOpp (lexcmp a b).
Proof. destruct a as [[a1 a2] a3], b as [[b1 b2] b3]. unfold lexcmp; simpl. zcmp_cases. Qed.

Lemma lexcmp_refl a : lexcmp a a = Eq.
Proof. destruct a as [[a1 a2] a3]. unfold lexcmp; simpl. by rewrite !Z.compare_refl. Qed.

Lemma lexcmp_trans a b c :
  lexcmp a b <> Gt -> lexcmp b c <> Gt -> lexcmp a c <> Gt.
Proof.
  destruct a as [[a1 a2] a3], b as [[b1 b2] b3], c as [[c1 c2] c3].
  unfold lexcmp; simpl. zcmp_cases.
Qed.

Lemma SFcompare_fkey a b :
  is_nan a = false -> is_nan b = false -> SFcompare a b = Some (lexcmp (fkey a) (fkey b)).
Proof.
  destruct a as [sa|sa| |sa ma ea], b as [sb|sb| |sb mb eb]; intros Ha Hb;
    try discriminate; try destruct sa; try destruct sb; try reflexivity;
    unfold lexcmp; simpl.
  - rewrite Z.compare_opp.
    destruct (Z.compare_spec ea eb), (Z.compare_spec eb ea); try lia; reflexivity.
Qed.

Section FloatOrder.
Implicit Types a b c : PlotType.

Lemma SFcompare_nan_l a b : SFcompare a b <> None -> is_nan a = false.
Proof. by destruct a. Qed.

Lemma SFcompare_nan_r a b : SFcompare a b <> None -> is_nan b = false.
Proof. destruct a as [| | |], b; simpl; try done; destruct s; done. Qed.

Lemma SFleb_iff a b :
  is_nan a = false -> is_nan b = false -> SFleb a b = true <-> lexcmp (fkey a) (fkey b) <> Gt.
Proof.
  intros Ha Hb. unfold SFleb. rewrite (SFcompare_fkey a b Ha Hb).
  destruct (lexcmp _ _); split; congruence.
Qed.

Lemma SFleb_refl a : is_nan a = false -> SFleb a a = true.
Proof. intros Ha. apply SFleb_iff; [done|done|]. by rewrite lexcmp_refl. Qed.

Lemma SFleb_trans a b c :
  is_nan a = false -> is_nan b = false -> is_nan c = false ->
  SFleb a b = true -> SFleb b c = true -> SFleb a c = true.
Proof.
  intros Ha Hb Hc H1 H2. apply SFleb_iff in H1, H2; [|done..].
  apply SFleb_iff; [done|done|]. eapply lexcmp_trans; eauto.
Qed.

Lemma f64_lt_nonnan a b : f64_lt a b = true -> is_nan a = false /\ is_nan b = false.
Proof.
  unfold f64_lt, SFltb. intros H. assert (Hs : SFcompare a b <> None) by (intros E; by rewrite E in H).
  split; [exact (SFcompare_nan_l a b Hs) | exact (SFcompare_nan_r a b Hs)].
Qed.

Lemma f64_gt_nonnan a b : f64_gt a b = true -> is_nan a = false /\ is_nan b = false.
Proof.
  unfold f64_gt. intros H. assert (Hs : SFcompare a b <> None) by (intros E; by rewrite E in H).
  split; [exact (SFcompare_nan_l a b Hs) | exact (SFcompare_nan_r a b Hs)].
Qed.

Lemma f64_lt_le a b : f64_lt a b = true -> SFleb a b = true.
Proof. unfold f64_lt, SFltb, SFleb. by destruct (SFcompare a b) as [[]|]. Qed.

Lemma f64_not_lt_le a b :
  is_nan a = false -> is_nan b = false -> f64_lt b a = false -> SFleb a b = true.
Proof.
  intros Ha Hb. unfold f64_lt, SFltb. rewrite (SFcompare_fkey b a Hb Ha), lexcmp_antisym.
  intros H. apply SFleb_iff; [done|done|]. by destruct (lexcmp (fkey a) (fkey b)).
Qed.

Lemma f64_gt_le a b : f64_gt a b = true -> SFleb b a = true.
Proof.
  intros H. destruct (f64_gt_nonnan a b H) as [Ha Hb]. revert H.
  unfold f64_gt. rewrite (SFcompare_fkey a b Ha Hb). intros H.
  apply SFleb_iff; [done|done|]. rewrite lexcmp_antisym.
  by destruct (lexcmp (fkey a) (fkey b)).
Qed.

Lemma f64_not_gt_le a b :
  is_nan a = false -> is_nan b = false -> f64_gt a b = false -> SFleb a b = true.
Proof.
  intros Ha Hb. unfold f64_gt. rewrite (SFcompare_fkey a b Ha Hb).
  intros H. apply SFleb_iff; [done|done|]. by destruct (lexcmp (fkey a) (fkey b)).
Qed.
End FloatOrder.

(** ** The folds of [x_min], [x_max], [y_min], [y_max] *)

Definition non_nan (l : list PlotType) : list PlotType := filter (fun v => is_nan v = false) l.

(** [r] is the least element of [S] for the IEEE order. *)
Definition is_least (S : list PlotType) (r : PlotType) : Prop :=
  r ∈ S /\ forall v, v ∈ S -> SFleb r v = true.
Definition is_greatest (S : list PlotType) (r : PlotType) : Prop :=
  r ∈ S /\ forall v, v ∈ S -> SFleb v r = true.

Lemma fold_min_gen (l : list PlotType) (acc : PlotType) :
  is_nan acc = false ->
  let r := fold_left (fun acc val => if f64_lt val acc then val else acc) l acc in
  (r = acc \/ r ∈ l) /\ is_nan r = false /\ SFleb r acc = true /\
  forall v, v ∈ l -> is_nan v = false -> SFleb r v = true.
Proof.
  revert acc. induction l as [|x l IH]; intros acc Hacc; simpl.
  - split; [by left|]. split; [done|]. split; [by apply SFleb_refl|]. set_solver.
  - destruct (f64_lt x acc) eqn:Hlt.
    + destruct (f64_lt_nonnan _ _ Hlt) as [Hx _].
      destruct (IH x Hx) as (Hr & Hn & Hle & Hall). set (r := fold_left _ l x) in *.
      split; [destruct Hr as [->|Hr]; right; [left|right]; done|].
      split; [done|]. split; [apply (SFleb_trans r x acc); eauto using f64_lt_le|].
      intros v [->|Hv]%elem_of_cons Hv'; [done|]. by apply Hall.
    + destruct (IH acc Hacc) as (Hr & Hn & Hle & Hall). set (r := fold_left _ l acc) in *.
      split; [destruct Hr as [->|Hr]; [left|right; right]; done|].
      split; [done|]. split; [done|].
      intros v [->|Hv]%elem_of_cons Hv'; [|by apply Hall].
      eapply SFleb_trans; [done|exact Hacc|done|done|]. by apply f64_not_lt_le.
Qed.

Lemma fold_max_gen (l : list PlotType) (acc : PlotType) :
  is_nan acc = false ->
  let r := fold_left (fun acc val => if f64_gt val acc then val else acc) l acc in
  (r = acc \/ r ∈ l) /\ is_nan r = false /\ SFleb acc r = true /\
  forall v, v ∈ l -> is_nan v = false -> SFleb v r = true.
Proof.
  revert acc. induction l as [|x l IH]; intros acc Hacc; simpl.
  - split; [by left|]. split; [done|]. split; [by apply SFleb_refl|]. set_solver.
  - destruct (f64_gt x acc) eqn:Hgt.
    + destruct (f64_gt_nonnan _ _ Hgt) as [Hx _].
      destruct (IH x Hx) as (Hr & Hn & Hle & Hall). set (r := fold_left _ l x) in *.
      split; [destruct Hr as [->|Hr]; right; [left|right]; done|].
      split; [done|]. split; [apply (SFleb_trans acc x r); eauto using f64_gt_le|].
      intros v [->|Hv]%elem_of_cons Hv'; [done|]. by apply Hall.
    + destruct (IH acc Hacc) as (Hr & Hn & Hle & Hall). set (r := fold_left _ l acc) in *.
      split; [destruct Hr as [->|Hr]; [left|right; right]; done|].
      split; [done|]. split; [done|].
      intros v [->|Hv]%elem_of_cons Hv'; [|by apply Hall].
      eapply SFleb_trans; [done|exact Hacc|done| |done]. by apply f64_not_gt_le.
Qed.

Lemma fold_min_least (l : list PlotType) : is_least (f64_MAX :: non_nan l) (Plot.fold_min l).
Proof.
  unfold Plot.fold_min. destruct (fold_min_gen l f64_MAX eq_refl) as (Hr & Hn & Hle & Hall).
  set (r := fold_left _ l f64_MAX) in *. split.
  - destruct Hr as [->|Hr]; [left|right]. apply list_elem_of_filter. done.
  - intros v [->|Hv]%elem_of_cons; [done|].
    apply list_elem_of_filter in Hv as [Hv' Hv]. by apply Hall.
Qed.

Lemma fold_max_greatest (l : list PlotType) : is_greatest (f64_MIN :: non_nan l) (Plot.fold_max l).
Proof.
  unfold Plot.fold_max. destruct (fold_max_gen l f64_MIN eq_refl) as (Hr & Hn & Hle & Hall).
  set (r := fold_left _ l f64_MIN) in *. split.
  - destruct Hr as [->|Hr]; [left|right]. apply list_elem_of_filter. done.
  - intros v [->|Hv]%elem_of_cons; [done|].
    apply list_elem_of_filter in Hv as [Hv' Hv]. by apply Hall.
Qed.

(** C4 *)

(** C4 (as amended): each axis range is the explicit [x_range] / [y_range]
    when set; otherwise it is [x_min..x_max] ([y_min..y_max]), where the lower
    end is the least of [f64::MAX] and every non-NaN buffered value of that
    coordinate, across all series, and the upper end the greatest of
    [f64::MIN] and those values. *)
Theorem axis_range (p : Plot.t) :
  Plot.x_axis p = match Options.x_range (Plot.options p) with
                  | Some r => r
                  | None => (Plot.x_min p, Plot.x_max p)
                  end /\
  Plot.y_axis p = match Options.y_range (Plot.options p) with
                  | Some r => r
                  | None => (Plot.y_min p, Plot.y_max p)
                  end /\
  is_least (f64_MAX :: non_nan (Plot.xs p)) (Plot.x_min p) /\
  is_greatest (f64_MIN :: non_nan (Plot.xs p)) (Plot.x_max p) /\
  is_least (f64_MAX :: non_nan (Plot.ys p)) (Plot.y_min p) /\
  is_greatest (f64_MIN :: non_nan (Plot.ys p)) (Plot.y_max p).
Proof.
  split; [reflexivity|]. split; [reflexivity|].
  split; [apply fold_min_least|]. split; [apply fold_max_greatest|].
  split; [apply fold_min_least|apply fold_max_greatest].
Qed.

(** One call with an explicit pair whose [x] is [+inf]. *)
Definition plot_inf : Plot.t :=
  default (Plot.new ["y"] Options.default)
          (Plot.insert (Plot.new ["y"] Options.default) [(S754_infinity false, S754_zero false)]).

(** C4: the only buffered x is [+inf], yet the derived range starts at
    [f64::MAX], strictly below it: the fold starts from [f64::MAX], not from
    [+inf]. *)
Lemma axis_range_not_true_min :
  Plot.xs plot_inf = [S754_infinity false] /\
  Options.x_range (Plot.options plot_inf) = None /\
  Plot.x_axis plot_inf = (f64_MAX, S754_infinity false) /\
  f64_lt f64_MAX (S754_infinity false) = true.
Proof. vm_compute. repeat split. Qed.

(** With every buffer empty and no explicit ranges, the axes handed to
    plotters are [f64::MAX..f64::MIN]: reversed, with an overflowing width. *)
Lemma empty_plot_axes (names : list string) (o : Options.t) :
  Options.x_range o = None -> Options.y_range o = None ->
  Plot.x_axis (Plot.new names o) = (f64_MAX, f64_MIN) /\
  Plot.y_axis (Plot.new names o) = (f64_MAX, f64_MIN).
Proof.
  intros Hx Hy. unfold Plot.x_axis, Plot.y_axis, Plot.new; simpl. rewrite Hx, Hy.
  unfold Plot.x_min, Plot.x_max, Plot.y_min, Plot.y_max, Plot.xs, Plot.ys; simpl.
  induction (length names) as [|n IH]; simpl; [done|].
  unfold Plot.fold_min, Plot.fold_max in *. simpl. exact IH.
Qed.

(** * Further properties of the code *)

(** ** The default caption and the default path *)

(** Whether the character [a] occurs in [s] ([str::contains] on a [char]). *)
Fixpoint has_char (a : ascii) (s : string) : bool :=
  match s with
  | EmptyString => false
  | String c s' => if ascii_dec c a then true else has_char a s'
  end.

Lemma string_app_nil (s : string) : "" +:+ s = s.
Proof. reflexivity. Qed.

Lemma string_app_cons (c : ascii) (s t : string) : String c s +:+ t = String c (s +:+ t).
Proof. reflexivity. Qed.

Lemma string_app_assoc (s1 s2 s3 : string) : (s1 +:+ s2) +:+ s3 = s1 +:+ (s2 +:+ s3).
Proof.
  induction s1 as [|c s1 IH]; [done|]. rewrite !string_app_cons. f_equal. exact IH.
Qed.

Lemma has_char_app a s1 s2 : has_char a (s1 +:+ s2) = has_char a s1 || has_char a s2.
Proof.
  induction s1 as [|c s1 IH]; [done|]. rewrite string_app_cons. simpl.
  by destruct (ascii_dec c a).
Qed.

Lemma has_char_sep a s d : has_char a (s +:+ String a d) = true.
Proof. rewrite has_char_app. simpl. destruct (ascii_dec a a); [|done]. apply orb_true_r. Qed.

(** A string ending in [a ++ d], with no [a] in [d], splits there uniquely. *)
Lemma split_last_char a s1 s2 d1 d2 :
  has_char a d1 = false -> has_char a d2 = false ->
  s1 +:+ String a d1 = s2 +:+ String a d2 -> s1 = s2 /\ d1 = d2.
Proof.
  revert s2. induction s1 as [|c s1 IH]; intros [|c' s2] H1 H2 H;
    rewrite ?string_app_nil, ?string_app_cons in H.
  - by injection H.
  - injection H as _ Hd. subst d1. by rewrite has_char_sep in H1.
  - injection H as _ Hd. subst d2. by rewrite has_char_sep in H2.
  - injection H as -> Hs. destruct (IH s2 H1 H2 Hs) as [-> ->]. done.
Qed.

Lemma pretty_N_char_colon x : pretty_N_char x <> ":"%char.
Proof. unfold pretty_N_char. repeat case_match; discriminate. Qed.

Lemma pretty_N_go_colon x s : has_char ":" s = false -> has_char ":" (pretty_N_go x s) = false.
Proof.
  revert s. induction (N.lt_wf_0 x) as [x _ IH]; intros s Hs.
  destruct (decide (x = 0%N)) as [->|Hx]; [by rewrite pretty_N_go_0|].
  rewrite pretty_N_go_step by lia. apply IH; [apply N.div_lt; lia|].
  simpl. destruct (ascii_dec _ _) as [E|_]; [by apply pretty_N_char_colon in E|done].
Qed.

(** The decimal rendering of a [u32] contains no [':']. *)
Lemma pretty_N_colon (n : N) : has_char ":" (pretty n) = false.
Proof. unfold pretty, pretty_N. case_decide; [done|]. by apply pretty_N_go_colon. Qed.

Lemma replace_char_length a b s : String.length (replace_char a b s) = String.length s.
Proof. induction s as [|c s IH]; simpl; [done|]. by rewrite IH. Qed.

Lemma replace_char_removes a b s : a <> b -> has_char a (replace_char a b s) = false.
Proof.
  intros Hab. induction s as [|c s IH]; simpl; [done|].
  destruct (ascii_dec c a); destruct (ascii_dec _ a); congruence.
Qed.

Lemma replace_char_keeps_absent a b c s :
  has_char c s = false -> b <> c -> has_char c (replace_char a b s) = false.
Proof.
  intros Hs Hbc. induction s as [|d s IH]; simpl in *; [done|].
  destruct (ascii_dec d c); [discriminate|].
  destruct (ascii_dec d a); destruct (ascii_dec _ c); congruence || auto.
Qed.

(** ** The registry keeps resolved options *)

(** The options of a record carry a caption and a path. *)
Definition resolved (w : PlotWrapper.t) : Prop :=
  is_Some (Options.caption (Plot.options (PlotWrapper.plot w))) /\
  is_Some (Options.path (Plot.options (PlotWrapper.plot w))).

Lemma new_resolved lf names loc o : resolved (PlotWrapper.new lf names loc o).
Proof. split; simpl; eauto. Qed.

Lemma run_resolved lf wo rd cs m m' :
  run lf wo rd cs m = Some m' ->
  (forall l w, m !! l = Some w -> resolved w) ->
  forall l w, m' !! l = Some w -> resolved w.
Proof.
  revert m. induction cs as [|c cs IH]; intros m H Hm; simpl in H.
  - by injection H as <-.
  - destruct (plot_call lf wo rd c m) as [m1|] eqn:H1; [|discriminate].
    apply (IH m1 H). intros l w Hw.
    destruct (plot_call_inv _ _ _ _ _ _ H1) as (w1 & Hins & ->).
    destruct (wrapper_insert_inv _ _ _ _ Hins) as [Hc _].
    destruct (decide (call_loc c = l)) as [<-|Hne].
    + rewrite lookup_insert_eq in Hw. injection Hw as <-.
      assert (Hr : resolved (record_of lf c m)).
      { unfold record_of. destruct (m !! call_loc c) eqn:E; [by eapply Hm|apply new_resolved]. }
      unfold config in Hc. injection Hc as _ Ho _. unfold resolved. by rewrite Ho.
    + rewrite lookup_insert_ne in Hw by done. by eapply Hm.
Qed.

(** Records are never live without the [live] feature. *)
Lemma run_nonlive wo rd cs m m' :
  run false wo rd cs m = Some m' ->
  (forall l w, m !! l = Some w -> PlotWrapper.live w = false) ->
  forall l w, m' !! l = Some w -> PlotWrapper.live w = false.
Proof.
  revert m. induction cs as [|c cs IH]; intros m H Hm; simpl in H.
  - by injection H as <-.
  - destruct (plot_call false wo rd c m) as [m1|] eqn:H1; [|discriminate].
    apply (IH m1 H). intros l w Hw.
    destruct (plot_call_inv _ _ _ _ _ _ H1) as (w1 & Hins & ->).
    destruct (wrapper_insert_inv _ _ _ _ Hins) as [Hc _].
    destruct (decide (call_loc c = l)) as [<-|Hne].
    + rewrite lookup_insert_eq in Hw. injection Hw as <-.
      unfold config in Hc. injection Hc as _ _ Hl. rewrite Hl.
      unfold record_of. destruct (m !! call_loc c) eqn:E; [by eapply Hm|done].
    + rewrite lookup_insert_ne in Hw by done. by eapply Hm.
Qed.

(** ** Inserting rows into one [Plot] *)

(** An [insert] with exactly one value per buffer. *)
Lemma plot_insert_full (p : Plot.t) (vals : list Sample) :
  length vals = length (Plot.values p) ->
  exists p', Plot.insert p vals = Some p' /\
    length (Plot.values p') = length (Plot.values p) /\
    Plot.options p' = Plot.options p /\
    forall i d v, Plot.values p !! i = Some d -> vals !! i = Some v ->
      Plot.values p' !! i = Some (Plot.push_window (Options.values (Plot.options p)) d v).
Proof.
  intros Hv.
  destruct (insert_loop_some (Options.values (Plot.options p)) 0 vals (Plot.values p))
    as [bufs Hbufs]; [lia|].
  exists (Plot.mk bufs (Plot.names p) (Plot.options p) ((Plot.iteration p + 1) `mod` 2 ^ 64)%N).
  unfold Plot.insert. rewrite Hbufs. split; [done|]. simpl.
  split; [exact (insert_loop_length _ _ _ _ _ Hbufs)|]. split; [done|].
  intros i d v Hd Hvi.
  destruct (insert_loop_spec _ _ _ _ _ Hbufs i v Hvi) as (d' & Hd' & Hd''). simpl in *.
  congruence.
Qed.

Lemma insert_loop_none W i vals bufs :
  i <= length bufs -> length bufs < i + length vals -> Plot.insert_loop W i vals bufs = None.
Proof.
  revert i bufs. induction vals as [|v vs IH]; intros i bufs H1 H2; simpl in *; [lia|].
  destruct (bufs !! i) as [d|] eqn:Hd; [|done].
  apply lookup_lt_Some in Hd. apply IH; rewrite length_insert; lia.
Qed.

(** A sequence of [Plot::insert] calls; a panic stops it. *)
Fixpoint insert_all (p : Plot.t) (rows : list (list Sample)) : option Plot.t :=
  match rows with
  | [] => Some p
  | r :: rs =>
      match Plot.insert p r with
      | Some p' => insert_all p' rs
      | None => None
      end
  end.

Lemma fold_push_none (col : list Sample) (d : list Sample) :
  fold_left (Plot.push_window None) col d = d ++ col.
Proof.
  revert d. induction col as [|v col IH]; intros d; simpl; [by rewrite app_nil_r|].
  rewrite IH. unfold Plot.push_window, Plot.push_back. by rewrite <- app_assoc.
Qed.

Lemma omap_lookup_length (i : nat) (rows : list (list Sample)) :
  Forall (fun r => i < length r) rows -> length (omap (fun r => r !! i) rows) = length rows.
Proof.
  induction 1 as [|r rows Hr _ IH]; [done|]. simpl.
  destruct (lookup_lt_is_Some_2 r i Hr) as [v ->]. simpl. f_equal. exact IH.
Qed.

Lemma insert_all_gen (p : Plot.t) (rows : list (list Sample)) :
  Forall (fun r => length r = length (Plot.values p)) rows ->
  exists p', insert_all p rows = Some p' /\
    length (Plot.values p') = length (Plot.values p) /\
    Plot.options p' = Plot.options p /\
    forall i d, Plot.values p !! i = Some d ->
      Plot.values p' !! i =
        Some (fold_left (Plot.push_window (Options.values (Plot.options p)))
                        (omap (fun r => r !! i) rows) d).
Proof.
  revert p. induction rows as [|r rows IH]; intros p Hrows.
  - exists p. simpl. done.
  - inversion Hrows as [|? ? Hr Hrest]; subst.
    destruct (plot_insert_full p r Hr) as (p1 & Hp1 & Hlen1 & Hopt1 & Hval1).
    destruct (IH p1) as (p' & Hp' & Hlen' & Hopt' & Hval').
    { rewrite Hlen1. exact Hrest. }
    exists p'. simpl. rewrite Hp1. split; [done|].
    split; [congruence|]. split; [congruence|].
    intros i d Hd.
    assert (Hi : i < length r) by (rewrite Hr; by eapply lookup_lt_Some).
    destruct (lookup_lt_is_Some_2 r i Hi) as [v Hv].
    rewrite (Hval' i (Plot.push_window (Options.values (Plot.options p)) d v)),
      Hopt1 by (by apply Hval1).
    simpl. rewrite Hv. done.
Qed.

(** ** Lengths of the series of a call site *)

(** The length of a series after [k] insertions: [min k w] under a window
    [w >= 1], [k] otherwise. *)
Definition window_len (W : option nat) (k : nat) : nat :=
  match W with
  | Some (S w) => Nat.min k (S w)
  | _ => k
  end.

Lemma window_len_0 W : window_len W 0 = 0.
Proof. by destruct W as [[|]|]. Qed.

Lemma push_window_length W d v k :
  length d = window_len W k -> length (Plot.push_window W d v) = window_len W (S k).
Proof.
  unfold Plot.push_window, Plot.push_back, Plot.pop_front, window_len. intros Hd.
  destruct W as [[|w]|]; rewrite length_app; simpl.
  - destruct (Nat.eqb_spec (length d) 0); [|lia]. destruct d; simpl in *; lia.
  - destruct (Nat.eqb_spec (length d) (S w)).
    + destruct d; simpl in *; lia.
    + lia.
  - lia.
Qed.

(** What the registry holds at [l] after [k] invocations there, each
    with [n] values. *)
Definition series_inv (n k : nat) (o : option PlotWrapper.t) : Prop :=
  match o with
  | None => k = 0
  | Some w =>
      length (Plot.values (PlotWrapper.plot w)) = n /\
      Forall (fun d => length d = window_len (Options.values (Plot.options (PlotWrapper.plot w))) k)
             (Plot.values (PlotWrapper.plot w))
  end.

Lemma run_series lf wo rd l n cs m m' k :
  Forall (fun c => call_loc c = l /\ length (call_args c) = n) cs ->
  run lf wo rd cs m = Some m' ->
  series_inv n k (m !! l) -> series_inv n (k + length cs) (m' !! l).
Proof.
  revert m k. induction cs as [|c cs IH]; intros m k Hcs H Hinv; simpl in H.
  - injection H as <-. by rewrite Nat.add_0_r.
  - inversion Hcs as [|? ? [Hl Hn] Hrest]; subst.
    destruct (plot_call lf wo rd c m) as [m1|] eqn:H1; [|discriminate].
    replace (k + length (c :: cs)) with (S k + length cs) by (simpl; lia).
    apply (IH m1); [done|done|].
    destruct (plot_call_inv _ _ _ _ _ _ H1) as (w1 & Hins & ->).
    rewrite lookup_insert_eq.
    destruct (wrapper_insert_inv _ _ _ _ Hins) as (Hc & _ & Hloop).
    unfold config in Hc. injection Hc as _ Ho _.
    assert (Hr : series_inv (length (call_args c)) k (Some (record_of lf c m))).
    { unfold record_of. destruct (m !! call_loc c) as [w0|] eqn:E; [exact Hinv|].
      simpl in Hinv. subst k. simpl. rewrite length_replicate, length_map.
      split; [done|]. apply Forall_replicate. by rewrite window_len_0. }
    destruct Hr as [Hlen Hall].
    set (w0 := record_of lf c m) in *.
    set (vals := map (arg_value (PlotWrapper.iteration w0)) (call_args c)) in *.
    simpl. rewrite Ho. split.
    + rewrite (insert_loop_length _ _ _ _ _ Hloop). done.
    + apply Forall_lookup_2. intros i d' Hd'.
      assert (Hi : i < length vals).
      { unfold vals. rewrite length_map, <- Hlen, <- (insert_loop_length _ _ _ _ _ Hloop).
        by eapply lookup_lt_Some. }
      destruct (lookup_lt_is_Some_2 vals i Hi) as [v Hv].
      destruct (insert_loop_spec _ _ _ _ _ Hloop i v Hv) as (d & Hd & Hd2). simpl in *.
      rewrite Hd' in Hd2. injection Hd2 as ->.
      apply push_window_length. exact (Forall_lookup_1 _ _ _ _ Hall Hd).
Qed.

(** ** Arity of the calls at one site *)


(** ** The parent directory of a default path *)

Lemma last_sep_none t : has_char "/" t = false -> last_sep_prefix t = None.
Proof.
  induction t as [|c t IH]; simpl; [done|].
  destruct (ascii_dec c "/"); [discriminate|]. intros H. by rewrite IH.
Qed.

Lemma last_sep_app s t : has_char "/" t = false -> last_sep_prefix (s +:+ t) = last_sep_prefix s.
Proof.
  intros Ht. induction s as [|c s IH].
  - rewrite string_app_nil. by apply last_sep_none.
  - rewrite string_app_cons. simpl. by rewrite IH.
Qed.

(** ** The derived axis ranges *)

Lemma least_nonnan (l : list PlotType) r : r ∈ f64_MAX :: non_nan l -> is_nan r = false.
Proof. intros [->|Hr]%elem_of_cons; [done|]. by apply list_elem_of_filter in Hr as [? _]. Qed.

Lemma greatest_nonnan (l : list PlotType) r : r ∈ f64_MIN :: non_nan l -> is_nan r = false.
Proof. intros [->|Hr]%elem_of_cons; [done|]. by apply list_elem_of_filter in Hr as [? _]. Qed.

Lemma fold_range_ordered (l : list PlotType) :
  SFleb (Plot.fold_min l) (Plot.fold_max l) = true <-> exists v, v ∈ l /\ is_nan v = false.
Proof.
  destruct (fold_min_least l) as [Hmin Hmin_le], (fold_max_greatest l) as [Hmax Hmax_le].
  split.
  - intros Hle. destruct (non_nan l) as [|v vs] eqn:E.
    + apply list_elem_of_singleton in Hmin, Hmax. rewrite Hmin, Hmax in Hle.
      vm_compute in Hle. discriminate.
    + exists v. assert (Hv : v ∈ non_nan l) by (rewrite E; left).
      by apply list_elem_of_filter in Hv as [? ?].
  - intros (v & Hv & Hn).
    assert (Hv' : v ∈ f64_MAX :: non_nan l) by (right; by apply list_elem_of_filter).
    assert (Hv'' : v ∈ f64_MIN :: non_nan l) by (right; by apply list_elem_of_filter).
    apply (SFleb_trans _ v); [eapply least_nonnan; eauto|done|eapply greatest_nonnan; eauto| |].
    + by apply Hmin_le.
    + by apply Hmax_le.
Qed.

Lemma fold_range_empty (l : list PlotType) :
  ~ (exists v, v ∈ l /\ is_nan v = false) ->
  Plot.fold_min l = f64_MAX /\ Plot.fold_max l = f64_MIN.
Proof.
  intros Hno. destruct (fold_min_least l) as [Hmin _], (fold_max_greatest l) as [Hmax _].
  destruct (non_nan l) as [|v vs] eqn:E.
  - by apply list_elem_of_singleton in Hmin, Hmax.
  - exfalso. apply Hno. exists v. assert (Hv : v ∈ non_nan l) by (rewrite E; left).
    by apply list_elem_of_filter in Hv as [? ?].
Qed.

(** X1 *)

(** X1: the default caption ["{}:{}:{}"] of a [Location] determines the
    location: two call sites have the same default caption only if they
    are the same call site. *)
Theorem location_caption_injective (l1 l2 : Location) :
  location_to_string l1 = location_to_string l2 <-> l1 = l2.
Proof.
  split; [|by intros ->].
  destruct l1 as [f1 n1 c1], l2 as [f2 n2 c2]. unfold location_to_string; simpl. intros H.
  rewrite !string_app_cons, !string_app_nil in H.
  assert (E : forall s t u, s +:+ String ":" (t +:+ String ":" u) =
                            (s +:+ String ":" t) +:+ String ":" u).
  { intros s t u. by rewrite string_app_assoc, string_app_cons. }
  rewrite !E in H.
  apply split_last_char in H as [H Hc]; [|apply pretty_N_colon..].
  apply split_last_char in H as [Hf Hn]; [|apply pretty_N_colon..].
  apply (inj pretty) in Hn, Hc. by subst.
Qed.

(** X2 *)

(** X2: the default path is ["plots/" ++ s ++ ".png"] where [s] is the
    caption with the same length and neither ['/'] nor [' ']; on Unix,
    where ['/'] is the only separator, its parent directory is [plots]. *)
Theorem default_path_in_plots (caption : string) :
  parent_rel (default_path caption) = Some "plots" /\
  exists s, default_path caption = "plots/" +:+ s +:+ ".png" /\
    String.length s = String.length caption /\
    has_char "/" s = false /\ has_char " " s = false.
Proof.
  set (s := replace_char " " "_" (replace_char "/" "-" caption)).
  assert (Hs : has_char "/" s = false).
  { apply replace_char_keeps_absent; [apply replace_char_removes|]; discriminate. }
  assert (Hp : default_path caption = "plots/" +:+ s +:+ ".png") by reflexivity.
  split.
  - rewrite Hp.
    assert (E : parent_rel ("plots/" +:+ s +:+ ".png") =
                Some (default EmptyString (last_sep_prefix ("plots/" +:+ s +:+ ".png"))))
      by reflexivity.
    rewrite E, last_sep_app; [reflexivity|].
    rewrite has_char_app, Hs. reflexivity.
  - exists s. split; [exact Hp|]. split; [unfold s; by rewrite !replace_char_length|]. split; [exact Hs|].
    apply replace_char_removes. discriminate.
Qed.

(** X3 *)

(** X3: every record of a registry built by macro invocations has a caption
    and a path, so the [unwrap]s of [options.caption] and [options.path]
    never panic; rendering it to a file renders to that path. *)
Theorem registry_paths_set (lf : bool) (window_ok : Options.t -> bool)
    (redraw_ok : Location -> Plot.t -> bool) (cs : list Call) (m : Registry)
    (l : Location) (w : PlotWrapper.t) :
  run lf window_ok redraw_ok cs ∅ = Some m -> m !! l = Some w ->
  is_Some (Options.caption (Plot.options (PlotWrapper.plot w))) /\
  exists path, Options.path (Plot.options (PlotWrapper.plot w)) = Some path /\
    forall parent dir_ok draw,
      plot_to_file parent dir_ok draw (PlotWrapper.plot w) =
      render_path parent dir_ok draw path (PlotWrapper.plot w).
Proof.
  intros H Hw.
  destruct (run_resolved lf window_ok redraw_ok cs ∅ m H) with l w as [Hc [path Hp]]; [|done|].
  { intros l' w' E. by rewrite lookup_empty in E. }
  split; [done|]. exists path. split; [done|].
  intros parent dir_ok draw. unfold plot_to_file. by rewrite Hp.
Qed.

Lemma registry_paths_set_witness :
  run false window_ok_all redraw_ok_all demo_calls ∅ = Some demo_registry /\
  demo_registry !! demo_l1 = Some demo_w1 /\
  is_Some (Options.caption (Plot.options (PlotWrapper.plot demo_w1))) /\
  exists path, Options.path (Plot.options (PlotWrapper.plot demo_w1)) = Some path /\
    forall parent dir_ok draw,
      plot_to_file parent dir_ok draw (PlotWrapper.plot demo_w1) =
      render_path parent dir_ok draw path (PlotWrapper.plot demo_w1).
Proof.
  pose proof demo_run as H1. pose proof demo_lookup_l1 as H2.
  split; [exact H1|]. split; [exact H2|].
  exact (registry_paths_set false window_ok_all redraw_ok_all demo_calls demo_registry
           demo_l1 demo_w1 H1 H2).
Defined.

(** X4 *)

(** X4: without the [live] feature, no record of the registry is live. *)
Theorem no_live_without_feature (window_ok : Options.t -> bool)
    (redraw_ok : Location -> Plot.t -> bool) (cs : list Call) (m : Registry) (l : Location)
    (w : PlotWrapper.t) :
  run false window_ok redraw_ok cs ∅ = Some m -> m !! l = Some w -> PlotWrapper.live w = false.
Proof.
  intros H Hw. refine (run_nonlive window_ok redraw_ok cs ∅ m H _ l w Hw).
  intros l' w' E. by rewrite lookup_empty in E.
Qed.

Lemma no_live_without_feature_witness :
  run false window_ok_all redraw_ok_all demo_calls ∅ = Some demo_registry /\
  demo_registry !! demo_l1 = Some demo_w1 /\
  PlotWrapper.live demo_w1 = false.
Proof.
  pose proof demo_run as H1. pose proof demo_lookup_l1 as H2.
  split; [exact H1|]. split; [exact H2|].
  exact (no_live_without_feature window_ok_all redraw_ok_all demo_calls demo_registry
           demo_l1 demo_w1 H1 H2).
Defined.

(** X6 *)

(** X6: [Plot::insert] panics (an index out of bounds) exactly when it is
    given more values than the plot has series. *)
Theorem plot_insert_panics_iff (p : Plot.t) (vals : list Sample) :
  Plot.insert p vals = None <-> length (Plot.values p) < length vals.
Proof.
  unfold Plot.insert. split.
  - intros H. destruct (decide (length vals <= length (Plot.values p))) as [Hle|]; [|lia].
    destruct (insert_loop_some (Options.values (Plot.options p)) 0 vals (Plot.values p))
      as [b Hb]; [lia|].
    rewrite Hb in H. discriminate.
  - intros Hlt. rewrite insert_loop_none by lia. done.
Qed.

(** X7 *)

Definition plot_ab : Plot.t := Plot.new ["a"; "b"] Options.default.
Definition one_sample : list Sample := [(S754_zero false, u64_to_f64 1)].
Definition plot_ab' : Plot.t := default plot_ab (Plot.insert plot_ab one_sample).

(** X7: an [insert] that does not panic keeps the number of series, the
    names and the options, increments the counter modulo [2^64], and leaves
    every series beyond the given values untouched. *)
Theorem plot_insert_keeps_rest (p p' : Plot.t) (vals : list Sample) :
  Plot.insert p vals = Some p' ->
  length (Plot.values p') = length (Plot.values p) /\
  Plot.names p' = Plot.names p /\ Plot.options p' = Plot.options p /\
  Plot.iteration p' = succ_u64 (Plot.iteration p) /\
  forall j, length vals <= j -> Plot.values p' !! j = Plot.values p !! j.
Proof.
  intros H. destruct (plot_insert_inv _ _ _ H) as (bufs & Hl & ->). simpl.
  split; [exact (insert_loop_length _ _ _ _ _ Hl)|].
  do 3 (split; [done|]). intros j Hj. apply (insert_loop_beyond _ _ _ _ _ Hl). lia.
Qed.

Lemma plot_insert_keeps_rest_witness :
  Plot.insert plot_ab one_sample = Some plot_ab' /\
  length (Plot.values plot_ab') = length (Plot.values plot_ab) /\
  Plot.names plot_ab' = Plot.names plot_ab /\ Plot.options plot_ab' = Plot.options plot_ab /\
  Plot.iteration plot_ab' = succ_u64 (Plot.iteration plot_ab) /\
  forall j, length one_sample <= j -> Plot.values plot_ab' !! j = Plot.values plot_ab !! j.
Proof.
  assert (H : Plot.insert plot_ab one_sample = Some plot_ab') by (vm_compute; reflexivity).
  split; [exact H|]. exact (plot_insert_keeps_rest plot_ab plot_ab' one_sample H).
Defined.

(** X8 *)

(** X8: feeding rows of one value per series to a new plot, series [i]
    holds the [i]-th values of the rows in order; with a window of [W >= 1]
    samples only the last [W] of them. *)
Theorem plot_keeps_last_window (names : list string) (o : Options.t)
    (rows : list (list Sample)) :
  Options.values o <> Some 0 ->
  Forall (fun r => length r = length names) rows ->
  exists p', insert_all (Plot.new names o) rows = Some p' /\
    forall i, i < length names ->
      Plot.values p' !! i =
        Some (match Options.values o with
              | Some W => drop (length rows - W) (omap (fun r => r !! i) rows)
              | None => omap (fun r => r !! i) rows
              end).
Proof.
  intros HW Hrows.
  destruct (insert_all_gen (Plot.new names o) rows) as (p' & Hp' & _ & _ & Hval).
  { simpl. by rewrite length_replicate. }
  exists p'. split; [done|]. intros i Hi.
  rewrite (Hval i []) by (simpl; by apply lookup_replicate_2).
  assert (Ho : Plot.options (Plot.new names o) = o) by reflexivity. rewrite Ho.
  assert (Hcol : length (omap (fun r => r !! i) rows) = length rows).
  { apply omap_lookup_length. eapply Forall_impl; [exact Hrows|]. intros r Hr. cbv beta in *. lia. }
  destruct (Options.values o) as [W|] eqn:EW.
  - assert (HW1 : 1 <= W) by (destruct W; [congruence|lia]).
    rewrite (push_window_fifo W _ HW1), Hcol. done.
  - by rewrite fold_push_none.
Qed.

Definition window2_opts : Options.t :=
  Options.mk None None None None None None None (Some 2) None.

Definition three_rows : list (list Sample) :=
  [[(u64_to_f64 0, u64_to_f64 7)]; [(u64_to_f64 1, u64_to_f64 8)]; [(u64_to_f64 2, u64_to_f64 9)]].

Lemma plot_keeps_last_window_witness :
  Options.values window2_opts <> Some 0 /\
  Forall (fun r => length r = length ["y"]) three_rows /\
  exists p', insert_all (Plot.new ["y"] window2_opts) three_rows = Some p' /\
    forall i, i < length ["y"] ->
      Plot.values p' !! i =
        Some (match Options.values window2_opts with
              | Some W => drop (length three_rows - W) (omap (fun r => r !! i) three_rows)
              | None => omap (fun r => r !! i) three_rows
              end).
Proof.
  assert (H1 : Options.values window2_opts <> Some 0) by discriminate.
  assert (H2 : Forall (fun r => length r = length ["y"]) three_rows) by (repeat constructor).
  split; [exact H1|]. split; [exact H2|].
  exact (plot_keeps_last_window ["y"] window2_opts three_rows H1 H2).
Defined.

(** X9 *)

(** X9: at a call site whose [K] invocations all pass [n] values, the record
    has [n] series, each holding [min K W] samples under a window of
    [W >= 1] samples, and [K] samples without a window or with [values = 0]. *)
Theorem series_length_after_calls (lf : bool) (window_ok : Options.t -> bool)
    (redraw_ok : Location -> Plot.t -> bool) (cs : list Call) (m : Registry)
    (l : Location) (w : PlotWrapper.t) (n : nat) :
  run lf window_ok redraw_ok cs ∅ = Some m -> m !! l = Some w ->
  (forall c, c ∈ cs -> call_loc c = l -> length (call_args c) = n) ->
  length (Plot.values (PlotWrapper.plot w)) = n /\
  Forall (fun d => length d = window_len (Options.values (Plot.options (PlotWrapper.plot w)))
                                         (length (filter (fun c => call_loc c = l) cs)))
         (Plot.values (PlotWrapper.plot w)).
Proof.
  intros H Hw Hn.
  destruct (run_local lf window_ok redraw_ok cs l ∅ ∅ m eq_refl H) as (m' & H' & Heq).
  assert (Hs : series_inv n (0 + length (filter (fun c => call_loc c = l) cs)) (m' !! l)).
  { apply (run_series lf window_ok redraw_ok l n _ ∅); [|exact H'|by rewrite lookup_empty].
    apply Forall_forall. intros c Hc. apply list_elem_of_filter in Hc as [Hl Hc].
    split; [done|]. by apply Hn. }
  rewrite Heq, Hw in Hs. exact Hs.
Qed.

Lemma demo_arity_l1 :
  forall c, c ∈ demo_calls -> call_loc c = demo_l1 -> length (call_args c) = 2.
Proof.
  intros c Hc. apply list_elem_of_In in Hc. simpl in Hc.
  destruct Hc as [<-|[<-|[<-|[]]]]; intros Hl; try reflexivity.
  simpl in Hl. unfold demo_l1, demo_l2 in Hl. discriminate.
Qed.

Lemma series_length_after_calls_witness :
  run false window_ok_all redraw_ok_all demo_calls ∅ = Some demo_registry /\ demo_registry !! demo_l1 = Some demo_w1 /\
  (forall c, c ∈ demo_calls -> call_loc c = demo_l1 -> length (call_args c) = 2) /\
  length (Plot.values (PlotWrapper.plot demo_w1)) = 2 /\
  Forall (fun d => length d = window_len (Options.values (Plot.options (PlotWrapper.plot demo_w1)))
                                         (length (filter (fun c => call_loc c = demo_l1) demo_calls)))
         (Plot.values (PlotWrapper.plot demo_w1)).
Proof.
  pose proof demo_run as H1. pose proof demo_lookup_l1 as H2. pose proof demo_arity_l1 as H3.
  split; [exact H1|]. split; [exact H2|]. split; [exact H3|].
  exact (series_length_after_calls false window_ok_all redraw_ok_all demo_calls demo_registry
           demo_l1 demo_w1 2 H1 H2 H3).
Defined.

(** X10 *)




(** X11 *)

(** X11: without explicit ranges, the derived x range [x_min..x_max] is in
    order ([x_min <= x_max]) exactly when some non-NaN x is buffered;
    otherwise it is the reversed [f64::MAX..f64::MIN]. Likewise for y. *)
Theorem derived_range_ordered (p : Plot.t) :
  (SFleb (Plot.x_min p) (Plot.x_max p) = true <-> exists v, v ∈ Plot.xs p /\ is_nan v = false) /\
  (SFleb (Plot.y_min p) (Plot.y_max p) = true <-> exists v, v ∈ Plot.ys p /\ is_nan v = false) /\
  (~ (exists v, v ∈ Plot.xs p /\ is_nan v = false) ->
     Plot.x_min p = f64_MAX /\ Plot.x_max p = f64_MIN) /\
  (~ (exists v, v ∈ Plot.ys p /\ is_nan v = false) ->
     Plot.y_min p = f64_MAX /\ Plot.y_max p = f64_MIN).
Proof.
  split; [apply fold_range_ordered|]. split; [apply fold_range_ordered|].
  split; apply fold_range_empty.
Qed.
